(** * cs_parser_common.h: shared definitions of the AGS script compiler

    A shallow embedding of the header [cs_parser_common.h] (namespace [AGS]):
    the layout constants, the flag helpers [FlagIsSet] / [SetFlag], the
    enumerations [SymbolType], [TypeQualifier], [SymbolTableFlag] and
    [ErrorType], and the class [MessageHandler]; and, from the editor and
    the engine, [TextImportProcessor.CreateSpeechLine] and the wait-skip
    and voice-speech members of [GameState].

    Conventions.
    - [long] values ([FlagSet], flag masks) are integers in [Z]; the
      operators [&], [|] and [~] are [Z.land], [Z.lor] and [Z.lnot], which
      on two's complement integers never leave the range of the type (see
      [SetFlag_in_long]), so no wrap-around has to be applied.
    - [size_t] values are in [N].
    - An enumeration is an inductive type together with its declaration (the
      list of enumerators, each with its optional initializer); the value of
      an enumerator is computed from the declaration by the rule of the
      language: the initializer when there is one, otherwise the value of
      the previous enumerator plus one, starting from zero.
    - A method that mutates its object takes the object and returns the new
      one. *)

From Stdlib Require Import ZArith Lia.
From stdpp Require Import base decidable option list strings gmap.

Local Open Scope Z_scope.

(** ** Enumerations *)

Section enum.
Context {A : Type} `{EqDecision A}.

(** The declaration of an enumeration: enumerators in source order, each
    with its initializer when the source gives one. *)
Definition enum_decl : Type := list (A * option Z).

(** The values of the enumerators: [next] is the value an enumerator
    without initializer gets. *)
Fixpoint enum_values (next : Z) (d : enum_decl) : list (A * Z) :=
  match d with
  | [] => []
  | (x, init) :: d' =>
      let v := match init with Some v => v | None => next end in
      (x, v) :: enum_values (v + 1) d'
  end.

Fixpoint enum_assoc (x : A) (l : list (A * Z)) : option Z :=
  match l with
  | [] => None
  | (y, v) :: l' => if decide (x = y) then Some v else enum_assoc x l'
  end.

Definition enum_value (d : enum_decl) (x : A) : option Z :=
  enum_assoc x (enum_values 0 d).

(** Position of an enumerator in the declaration. *)
Fixpoint enum_index (x : A) (d : enum_decl) : option nat :=
  match d with
  | [] => None
  | (y, _) :: d' =>
      if decide (x = y) then Some 0%nat else S <$> enum_index x d'
  end.
End enum.

Arguments enum_decl A : clear implicits.

(** ** Type definitions and layout constants *)

Definition FlagSet : Type := Z.           (* typedef long FlagSet *)
Definition TypeQualifierSet : Type := FlagSet.

Definition STRINGBUFFER_LENGTH : N := 200.

Definition SIZE_OF_CHAR : N := 1.
Definition SIZE_OF_DYNPOINTER : N := 4.
Definition SIZE_OF_FLOAT : N := 4.
Definition SIZE_OF_INT : N := 4.
Definition SIZE_OF_LONG : N := 4.
Definition SIZE_OF_SHORT : N := 2.
Definition SIZE_OF_STACK_CELL : N := 4.
Definition STRUCT_ALIGNTO : N := 4.

Definition MAX_FUNCTION_PARAMETERS : N := 15.

(** ** Flags *)

(** [w]-bit two's complement range, the values of a [long] that is [w] bits
    wide. *)
Definition in_long (w : Z) (z : Z) : Prop := - 2 ^ (w - 1) <= z < 2 ^ (w - 1).

(** [return 0 != (fl_set & flag);] *)
Definition FlagIsSet (fl_set : FlagSet) (flag : Z) : bool :=
  negb (0 =? Z.land fl_set flag).

(** [if (val) fl_set |= flag; else fl_set &= ~flag;]: the flag set is
    passed by reference, the function returns its new value. *)
Definition SetFlag (fl_set : FlagSet) (flag : Z) (val : bool) : FlagSet :=
  if val then Z.lor fl_set flag else Z.land fl_set (Z.lnot flag).

(** ** SymbolType *)

Inductive SymbolType : Set :=
  | kSYM_NoType
  | kSYM_Attribute
  | kSYM_Delimiter
  | kSYM_Constant
  | kSYM_Function
  | kSYM_GlobalVar
  | kSYM_LiteralFloat
  | kSYM_LiteralInt
  | kSYM_LiteralString
  | kSYM_LocalVar
  | kSYM_Operator
  | kSYM_StructComponent
  | kSYM_Assign
  | kSYM_AssignMod
  | kSYM_AssignSOp
  | kSYM_Keyword
  | kSYM_Import
  | kSYM_UndefinedStruct
  | kSYM_Vartype.

#[global] Instance SymbolType_eq_dec : EqDecision SymbolType.
Proof. solve_decision. Defined.

(** The enumerators as the source declares them: only [kSYM_NoType] has an
    initializer. *)
Definition SymbolType_decl : enum_decl SymbolType :=
  [ (kSYM_NoType, Some 0);
    (kSYM_Attribute, None);
    (kSYM_Delimiter, None);
    (kSYM_Constant, None);
    (kSYM_Function, None);
    (kSYM_GlobalVar, None);
    (kSYM_LiteralFloat, None);
    (kSYM_LiteralInt, None);
    (kSYM_LiteralString, None);
    (kSYM_LocalVar, None);
    (kSYM_Operator, None);
    (kSYM_StructComponent, None);
    (kSYM_Assign, None);
    (kSYM_AssignMod, None);
    (kSYM_AssignSOp, None);
    (kSYM_Keyword, None);
    (kSYM_Import, None);
    (kSYM_UndefinedStruct, None);
    (kSYM_Vartype, None) ].

(** Numerical value of a tag (every tag is declared, see
    [SymbolType_value_declared]; the default is never taken). *)
Definition SymbolType_value (t : SymbolType) : Z :=
  default 0 (enum_value SymbolType_decl t).

(** [constexpr SymbolType kSYM_LastInExpression = kSYM_StructComponent;] *)
Definition kSYM_LastInExpression : SymbolType := kSYM_StructComponent.

(** Modelled from the spec: the parser that tests a tag against
    [kSYM_LastInExpression] is not part of the header. The spec (expression
    legality) lets a symbol be an expression operand only when its
    SymbolType precedes the last-in-expression boundary; the header's
    comment on the constant says the same: types starting numerically with
    it are not part of expressions. *)
Definition precedes_LastInExpression (t : SymbolType) : bool :=
  SymbolType_value t <? SymbolType_value kSYM_LastInExpression.

(** Modelled from the spec: "types ordered before struct component are the
    only ones legal inside an expression", the order being the one in which
    the tags are declared. *)
Definition expression_legal (t : SymbolType) : bool :=
  match enum_index t SymbolType_decl,
        enum_index kSYM_StructComponent SymbolType_decl with
  | Some i, Some j => bool_decide (i < j)%nat
  | _, _ => false
  end.

(** ** TypeQualifier *)

(** An unscoped enumeration whose enumerators are used as [long] masks; each
    is the integer its initializer denotes ([<<] is [Z.shiftl]). *)
Definition kTQ_None : Z := 0.
Definition kTQ_Attribute : Z := Z.shiftl 1 0.
Definition kTQ_Autoptr : Z := Z.shiftl 1 1.
Definition kTQ_Builtin : Z := Z.shiftl 1 2.
Definition kTQ_Const : Z := Z.shiftl 1 3.
Definition kTQ_ImportStd : Z := Z.shiftl 1 4.
Definition kTQ_ImportTry : Z := Z.shiftl 1 5.
Definition kTQ_Managed : Z := Z.shiftl 1 6.
Definition kTQ_Protected : Z := Z.shiftl 1 7.
Definition kTQ_Readonly : Z := Z.shiftl 1 8.
Definition kTQ_Static : Z := Z.shiftl 1 9.
Definition kTQ_Stringstruct : Z := Z.shiftl 1 10.
Definition kTQ_Writeprotected : Z := Z.shiftl 1 11.
Definition kTQ_Import : Z := Z.lor kTQ_ImportStd kTQ_ImportTry.

(** The qualifiers that are declared as a single shifted bit, in source
    order. *)
Definition single_bit_qualifiers : list Z :=
  [ kTQ_Attribute; kTQ_Autoptr; kTQ_Builtin; kTQ_Const; kTQ_ImportStd;
    kTQ_ImportTry; kTQ_Managed; kTQ_Protected; kTQ_Readonly; kTQ_Static;
    kTQ_Stringstruct; kTQ_Writeprotected ].

(** ** ErrorType *)

Inductive ErrorType : Set :=
  | kERR_None
  | kERR_UserError
  | kERR_InternalError.

#[global] Instance ErrorType_eq_dec : EqDecision ErrorType.
Proof. solve_decision. Defined.

Definition ErrorType_decl : enum_decl ErrorType :=
  [ (kERR_None, Some 0);
    (kERR_UserError, Some (-1));
    (kERR_InternalError, Some (-99)) ].

Definition ErrorType_value (e : ErrorType) : Z :=
  default 0 (enum_value ErrorType_decl e).

(** ** MessageHandler *)

Module MessageHandler.

Inductive Severity : Set :=
  | kSV_None
  | kSV_Info
  | kSV_Warning
  | kSV_Error.

#[global] Instance Severity_eq_dec : EqDecision Severity.
Proof. solve_decision. Defined.

(** [struct Entry]; the fields carry the prefix [Entry_] because the
    source names one of them like its type. *)
Record Entry : Type := mkEntry {
  Entry_Severity : Severity;
  Entry_Section : string;
  Entry_Lineno : N;
  Entry_Message : string
}.

(** Modelled from the spec: the header only declares the constructor
    [Entry(sev, section, lineno, msg)], its body is outside the header. For
    the spec an entry is {severity, section name, line number, message
    text}: the constructor stores each argument in the field of that
    name. *)
Definition Entry_ctor (sev : Severity) (section : string) (lineno : N)
    (msg : string) : Entry :=
  {| Entry_Severity := sev; Entry_Section := section;
     Entry_Lineno := lineno; Entry_Message := msg |}.

Definition MessagesType : Type := list Entry.

(** The object: its only non-static member is [_entries]. *)
Record t : Type := mk { _entries : MessagesType }.

(** [_entries.emplace_back(sev, sec, line, msg);] *)
Definition AddMessage (sev : Severity) (sec : string) (line : N)
    (msg : string) (h : t) : t :=
  {| _entries := _entries h ++ [Entry_ctor sev sec line msg] |}.

(** [return _entries;] (by value: a copy). *)
Definition GetMessages (h : t) : MessagesType := _entries h.

(** [_entries.clear();] *)
Definition Clear (h : t) : t := {| _entries := [] |}.

Section GetError.
(** [static Entry _noError;] is declared in the header and defined
    elsewhere: whatever entry it is, it is the sentinel. *)
Variable _noError : Entry.

(** Modelled from the spec: [GetError] is declared in the header, its body
    is outside the header. For the spec it "returns the first entry with
    error severity, or a sentinel no-error entry if none exists". *)
Definition GetError (h : t) : Entry :=
  match list_find (λ e, Entry_Severity e = kSV_Error) (_entries h) with
  | Some (_, e) => e
  | None => _noError
  end.
End GetError.

(** The members that change the object, as calls. [GetMessages] and
    [GetError] are [const]. *)
Inductive Mutator : Type :=
  | CallAddMessage (sev : Severity) (sec : string) (line : N) (msg : string)
  | CallClear.

Definition call (c : Mutator) (h : t) : t :=
  match c with
  | CallAddMessage sev sec line msg => AddMessage sev sec line msg h
  | CallClear => Clear h
  end.

(** A series of calls, first call first. *)
Definition calls (cs : list Mutator) (h : t) : t :=
  foldl (λ h' c, call c h') h cs.

(** The object as it is constructed: the vector is empty. *)
Definition new : t := {| _entries := [] |}.

(** The entries [GetError] looks for. *)
Definition is_error (e : Entry) : Prop := Entry_Severity e = kSV_Error.

(** The calls of a compilation that only reports info and warning
    messages. *)
Definition adds_no_error (c : Mutator) : Prop :=
  match c with
  | CallAddMessage sev _ _ _ => sev = kSV_Info ∨ sev = kSV_Warning
  | CallClear => True
  end.

End MessageHandler.

(** ** SymbolTableFlag *)

(** [enum SymbolTableFlag : FlagSet]: every enumerator has its
    initializer. *)
Definition kSFLG_Accessed : Z := Z.shiftl 1 0.
Definition kSFLG_NoLoopCheck : Z := Z.shiftl 1 1.
Definition kSFLG_StructAutoPtr : Z := Z.shiftl 1 2.
Definition kSFLG_StructBuiltin : Z := Z.shiftl 1 3.
Definition kSFLG_StructMember : Z := Z.shiftl 1 4.
Definition kSFLG_StructManaged : Z := Z.shiftl 1 5.
Definition kSFLG_StructVartype : Z := Z.shiftl 1 6.

(** The enumerators of [SymbolTableFlag], in source order. *)
Definition SymbolTableFlag_enumerators : list Z :=
  [ kSFLG_Accessed; kSFLG_NoLoopCheck; kSFLG_StructAutoPtr;
    kSFLG_StructBuiltin; kSFLG_StructMember; kSFLG_StructManaged;
    kSFLG_StructVartype ].

(** The enumerators of [TypeQualifier], in source order. *)
Definition TypeQualifier_enumerators : list Z :=
  [ kTQ_None; kTQ_Attribute; kTQ_Autoptr; kTQ_Builtin; kTQ_Const;
    kTQ_ImportStd; kTQ_ImportTry; kTQ_Managed; kTQ_Protected; kTQ_Readonly;
    kTQ_Static; kTQ_Stringstruct; kTQ_Writeprotected; kTQ_Import ].

(** A series of calls [SetFlag(fl_set, flag, val)] on one flag set, first
    call first. *)
Definition SetFlags (ops : list (Z * bool)) (fl_set : FlagSet) : FlagSet :=
  foldl (λ s op, SetFlag s op.1 op.2) fl_set ops.

(** ** TextImportProcessor (AGS.Editor) *)

Module TextImportProcessor.

(** What a call can throw. *)
Inductive Exception : Set :=
  | ArgumentNullException
  | NullReferenceException.

(** A reference of type [string]: [None] is [null]. *)
Definition StringRef : Type := option string.

(** [Dictionary<string, string>]: the keys are never [null], the values can
    be. The field [_translationToUse] is itself a reference. *)
Definition Dictionary : Type := gmap string StringRef.

Record t : Type := mk { _translationToUse : option Dictionary }.

(** [return 0;] (a dummy character ID). *)
Definition ParseFunctionCallAndFindCharacterID (this : t)
    (scriptCodeExtract : StringRef) : Z := 0.

(** [if (_translationToUse.ContainsKey(text) &&
         _translationToUse[text].Length > 0)
       return _translationToUse[text];
     return text;]
    [ContainsKey] throws on a [null] key, a member access on [null]
    throws. *)
Definition CreateSpeechLine (this : t) (speakingCharacter : Z)
    (text : StringRef) : Exception + StringRef :=
  match _translationToUse this with
  | None => inl NullReferenceException
  | Some dict =>
      match text with
      | None => inl ArgumentNullException
      | Some key =>
          match dict !! key with
          | None => inr text
          | Some None => inl NullReferenceException
          | Some (Some translation) =>
              if (0 <? String.length translation)%nat
              then inr (Some translation)
              else inr text
          end
      end
  end.

End TextImportProcessor.

(** ** GameState (Engine): the result of a skipped wait, voice speech *)

(** An [int] is 32 bits wide: the value an operation on [int]s has after it
    wrapped around. *)
Definition wrap_int (z : Z) : Z := (z + 2 ^ 31) mod 2 ^ 32 - 2 ^ 31.

Module GameState.

(** The members of [GameState] that the functions below read or write. *)
Record t : Type := mk {
  wait_counter : Z;
  wait_skipped_by : Z;
  wait_skipped_by_data : Z;
  speech_has_voice : bool;
  speech_voice_blocking : bool
}.

(** [wait_counter = 0; wait_skipped_by = how; wait_skipped_by_data = data;] *)
Definition SetWaitSkipResult (how data : Z) (this : t) : t :=
  {| wait_counter := 0;
     wait_skipped_by := how;
     wait_skipped_by_data := data;
     speech_has_voice := speech_has_voice this;
     speech_voice_blocking := speech_voice_blocking this |}.

Section skip_result.
(** The macros [SKIP_AUTOTIMER], [SKIP_RESULT_TYPE_SHIFT] and
    [SKIP_RESULT_DATA_MASK] are defined in a header outside this file. *)
Variables SKIP_AUTOTIMER SKIP_RESULT_TYPE_SHIFT SKIP_RESULT_DATA_MASK : Z.

(** [return ((wait_skipped_by & ~SKIP_AUTOTIMER) << SKIP_RESULT_TYPE_SHIFT)
            | (wait_skipped_by_data & SKIP_RESULT_DATA_MASK);] *)
Definition GetWaitSkipResult (this : t) : Z :=
  Z.lor
    (wrap_int
       (Z.shiftl (Z.land (wait_skipped_by this) (Z.lnot SKIP_AUTOTIMER))
          SKIP_RESULT_TYPE_SHIFT))
    (Z.land (wait_skipped_by_data this) SKIP_RESULT_DATA_MASK).
End skip_result.

(** [return speech_has_voice && speech_voice_blocking;] *)
Definition IsBlockingVoiceSpeech (this : t) : bool :=
  speech_has_voice this && speech_voice_blocking this.

(** [return speech_has_voice && !speech_voice_blocking;] *)
Definition IsNonBlockingVoiceSpeech (this : t) : bool :=
  speech_has_voice this && negb (speech_voice_blocking this).

End GameState.

(** * Properties *)

(** ** Enumerations *)

Lemma SymbolType_value_declared (t : SymbolType) :
  is_Some (enum_value SymbolType_decl t).
Proof. destruct t; vm_compute; eauto. Qed.

(** No initializer after the first: the value of a tag is its position in
    the declaration. *)
Lemma SymbolType_value_index (t : SymbolType) :
  enum_index t SymbolType_decl = Some (Z.to_nat (SymbolType_value t))
  ∧ 0 <= SymbolType_value t < 19.
Proof. destruct t; vm_compute; intuition congruence. Qed.

Lemma SymbolType_value_inj (t u : SymbolType) :
  SymbolType_value t = SymbolType_value u → t = u.
Proof. destruct t, u; vm_compute; congruence. Qed.

Lemma expression_legal_lt (t : SymbolType) :
  expression_legal t = true ↔
  SymbolType_value t < SymbolType_value kSYM_StructComponent.
Proof.
  unfold expression_legal.
  destruct (SymbolType_value_index t) as [-> Ht].
  destruct (SymbolType_value_index kSYM_StructComponent) as [-> Hc].
  rewrite bool_decide_eq_true. lia.
Qed.

Lemma precedes_LastInExpression_lt (t : SymbolType) :
  precedes_LastInExpression t = true ↔
  SymbolType_value t < SymbolType_value kSYM_LastInExpression.
Proof. unfold precedes_LastInExpression. apply Z.ltb_lt. Qed.

(** C1: the tags have the values 0, 1, ..., 18 in the order no-type,
    attribute, delimiter, constant, function, global variable, float / int /
    string literal, local variable, operator, struct component, plain /
    compound / single-operand assignment, keyword, import, undefined struct,
    vartype; [kSYM_LastInExpression] is [kSYM_StructComponent]; and for
    every tag [t], [t] is legal inside an expression (ordered before the
    struct-component tag) iff [t < kSYM_LastInExpression], which is also
    what the ordering test against the constant computes. *)
Theorem SymbolType_expression_legal_iff :
  SymbolType_value <$>
    [ kSYM_NoType; kSYM_Attribute; kSYM_Delimiter; kSYM_Constant;
      kSYM_Function; kSYM_GlobalVar; kSYM_LiteralFloat; kSYM_LiteralInt;
      kSYM_LiteralString; kSYM_LocalVar; kSYM_Operator; kSYM_StructComponent;
      kSYM_Assign; kSYM_AssignMod; kSYM_AssignSOp; kSYM_Keyword; kSYM_Import;
      kSYM_UndefinedStruct; kSYM_Vartype ]
  = [ 0; 1; 2; 3; 4; 5; 6; 7; 8; 9; 10; 11; 12; 13; 14; 15; 16; 17; 18 ]
  ∧ kSYM_LastInExpression = kSYM_StructComponent
  ∧ ∀ t : SymbolType,
      (expression_legal t = true ↔
       SymbolType_value t < SymbolType_value kSYM_LastInExpression)
      ∧ precedes_LastInExpression t = expression_legal t.
Proof.
  split; [reflexivity|]. split; [reflexivity|]. intros t.
  pose proof (expression_legal_lt t) as Hl.
  pose proof (precedes_LastInExpression_lt t) as Hp.
  change kSYM_LastInExpression with kSYM_StructComponent in *.
  split; [exact Hl|].
  apply eq_true_iff_eq. rewrite Hl, Hp. reflexivity.
Qed.

(** C3, as the header has it: the tags of a struct component and of a
    keyword lie at or beyond [kSYM_LastInExpression], so the ordering test
    rejects them; the tag of a delimiter (value 2) lies before it, and the
    ordering test lets it pass. *)
Theorem StructComponent_Keyword_beyond_Delimiter_before :
  SymbolType_value kSYM_StructComponent >=
    SymbolType_value kSYM_LastInExpression
  ∧ SymbolType_value kSYM_Keyword >= SymbolType_value kSYM_LastInExpression
  ∧ SymbolType_value kSYM_Delimiter < SymbolType_value kSYM_LastInExpression
  ∧ precedes_LastInExpression kSYM_StructComponent = false
  ∧ precedes_LastInExpression kSYM_Keyword = false
  ∧ precedes_LastInExpression kSYM_Delimiter = true.
Proof. vm_compute. intuition congruence. Qed.

(** C3 as the spec states it does not hold: the delimiter tag is not at or
    beyond the boundary. *)
Lemma Delimiter_not_beyond_LastInExpression :
  ¬ (SymbolType_value kSYM_StructComponent >=
       SymbolType_value kSYM_LastInExpression
     ∧ SymbolType_value kSYM_Keyword >=
       SymbolType_value kSYM_LastInExpression
     ∧ SymbolType_value kSYM_Delimiter >=
       SymbolType_value kSYM_LastInExpression).
Proof. intros (_ & _ & H). vm_compute in H. apply H. reflexivity. Qed.

(** C10: [kSYM_NoType] is 0, strictly before [kSYM_LastInExpression]; a
    symbol that still has this tag passes the ordering test. *)
Theorem NoType_precedes_LastInExpression :
  SymbolType_value kSYM_NoType = 0
  ∧ SymbolType_value kSYM_NoType < SymbolType_value kSYM_LastInExpression
  ∧ precedes_LastInExpression kSYM_NoType = true
  ∧ expression_legal kSYM_NoType = true.
Proof. vm_compute. intuition congruence. Qed.

(** C8: the codes of "no error", "user error" and "internal error" are 0,
    -1 and -99; different outcomes have different codes. *)
Theorem ErrorType_codes_distinct :
  ErrorType_value kERR_None = 0
  ∧ ErrorType_value kERR_UserError = -1
  ∧ ErrorType_value kERR_InternalError = -99
  ∧ ∀ a b : ErrorType, a ≠ b → ErrorType_value a ≠ ErrorType_value b.
Proof.
  repeat split; try reflexivity.
  intros a b Hab. destruct a, b; vm_compute; congruence.
Qed.

Lemma ErrorType_codes_distinct_witness :
  ErrorType_value kERR_UserError ≠ ErrorType_value kERR_InternalError.
Proof.
  apply (proj2 (proj2 (proj2 ErrorType_codes_distinct))). discriminate.
Defined.

(** ** Layout constants *)

(** C2: the cell sizes of the runtime contract. *)
Theorem layout_constants :
  SIZE_OF_DYNPOINTER = 4%N
  ∧ SIZE_OF_INT = 4%N ∧ SIZE_OF_FLOAT = 4%N ∧ SIZE_OF_LONG = 4%N
  ∧ SIZE_OF_SHORT = 2%N
  ∧ SIZE_OF_CHAR = 1%N
  ∧ STRUCT_ALIGNTO = 4%N
  ∧ SIZE_OF_STACK_CELL = 4%N
  ∧ MAX_FUNCTION_PARAMETERS = 15%N.
Proof. repeat split. Qed.

(** ** Flags *)

(** Bitwise equalities are proved bit by bit. *)
Ltac by_bits n :=
  apply Z.bits_inj'; intros n ?;
  repeat first
    [ rewrite Z.lor_spec | rewrite Z.land_spec
    | rewrite Z.lnot_spec by assumption ].

Lemma land_0_bits (f g : Z) (n : Z) :
  Z.land f g = 0 → Z.testbit f n && Z.testbit g n = false.
Proof. intros H. rewrite <- Z.land_spec, H. apply Z.bits_0. Qed.

Lemma land_eq_bits (s f : Z) (n : Z) :
  Z.land s f = f → Z.testbit f n = true → Z.testbit s n = true.
Proof.
  intros H Hf. rewrite <- H, Z.land_spec in Hf.
  apply andb_true_iff in Hf. tauto.
Qed.

Lemma FlagIsSet_true (s f : Z) : FlagIsSet s f = true ↔ Z.land s f ≠ 0.
Proof.
  unfold FlagIsSet. rewrite negb_true_iff, Z.eqb_neq. split; congruence.
Qed.

Lemma FlagIsSet_false (s f : Z) : FlagIsSet s f = false ↔ Z.land s f = 0.
Proof.
  unfold FlagIsSet. rewrite negb_false_iff, Z.eqb_eq. split; congruence.
Qed.

(** A mask with one bit: the test reads that bit. *)
Lemma FlagIsSet_bit (s k : Z) :
  0 <= k → FlagIsSet s (Z.shiftl 1 k) = Z.testbit s k.
Proof.
  intros Hk. rewrite Z.shiftl_1_l.
  destruct (Z.testbit s k) eqn:Hb.
  - apply FlagIsSet_true. intros H.
    assert (Hn : Z.testbit (Z.land s (2 ^ k)) k = true).
    { rewrite Z.land_spec, Hb, Z.pow2_bits_true; [reflexivity | lia]. }
    rewrite H, Z.bits_0 in Hn. discriminate.
  - apply FlagIsSet_false. by_bits n.
    rewrite Z.bits_0. destruct (decide (n = k)) as [-> | Hne].
    + rewrite Hb. reflexivity.
    + rewrite (Z.pow2_bits_false k n) by lia. apply andb_false_r.
Qed.

(** What [SetFlag] does to the bits of the mask, and to the others. *)
Lemma SetFlag_true_mask (s f : Z) : Z.land (SetFlag s f true) f = f.
Proof.
  unfold SetFlag. by_bits n.
  destruct (Z.testbit s n), (Z.testbit f n); reflexivity.
Qed.

Lemma SetFlag_false_mask (s f : Z) : Z.land (SetFlag s f false) f = 0.
Proof.
  unfold SetFlag. by_bits n. rewrite Z.bits_0.
  destruct (Z.testbit s n), (Z.testbit f n); reflexivity.
Qed.

Lemma SetFlag_other_bits (s f g : Z) (v : bool) :
  Z.land f g = 0 → Z.land (SetFlag s f v) g = Z.land s g.
Proof.
  intros H. unfold SetFlag. destruct v; by_bits n;
    pose proof (land_0_bits f g n H) as Hb;
    destruct (Z.testbit s n), (Z.testbit f n), (Z.testbit g n);
    simpl in *; congruence.
Qed.

Lemma SetFlag_twice (s f : Z) (v : bool) :
  SetFlag (SetFlag s f v) f v = SetFlag s f v.
Proof.
  unfold SetFlag. destruct v.
  - rewrite <- Z.lor_assoc, Z.lor_diag. reflexivity.
  - rewrite <- Z.land_assoc, Z.land_diag. reflexivity.
Qed.

Lemma SetFlag_true_already (s f : Z) : Z.land s f = f → SetFlag s f true = s.
Proof.
  intros H. unfold SetFlag. by_bits n.
  pose proof (land_eq_bits s f n H) as Hb.
  destruct (Z.testbit s n), (Z.testbit f n); simpl in *; auto.
  symmetry. auto.
Qed.

Lemma SetFlag_false_already (s f : Z) : Z.land s f = 0 → SetFlag s f false = s.
Proof.
  intros H. unfold SetFlag. by_bits n.
  pose proof (land_0_bits s f n H) as Hb.
  destruct (Z.testbit s n), (Z.testbit f n); simpl in *; congruence.
Qed.

(** The operators stay inside the type: a [w]-bit integer is one whose bits
    from position [w - 1] on are all equal. *)
Lemma in_long_shiftr (w z : Z) :
  0 < w →
  in_long w z ↔ (Z.shiftr z (w - 1) = 0 ∨ Z.shiftr z (w - 1) = -1).
Proof.
  intros Hw. unfold in_long. rewrite Z.shiftr_div_pow2 by lia.
  assert (Hp : 0 < 2 ^ (w - 1)) by (apply Z.pow_pos_nonneg; lia).
  pose proof (Z.div_mod z (2 ^ (w - 1)) ltac:(lia)) as Hd.
  pose proof (Z.mod_pos_bound z (2 ^ (w - 1)) Hp) as Hm.
  split.
  - intros [Hlo Hhi]. destruct (Z_lt_le_dec z 0); [right | left]; nia.
  - intros [H0 | H1]; [rewrite H0 in Hd | rewrite H1 in Hd]; lia.
Qed.

Lemma SetFlag_in_long (w s f : Z) (v : bool) :
  0 < w → in_long w s → in_long w f → in_long w (SetFlag s f v).
Proof.
  intros Hw Hs Hf. unfold SetFlag. destruct v.
  - apply in_long_shiftr in Hs, Hf; try assumption.
    apply in_long_shiftr; [assumption|]. rewrite Z.shiftr_lor.
    destruct Hs as [-> | ->], Hf as [-> | ->]; auto.
  - assert (Hn : in_long w (Z.lnot f)).
    { unfold in_long in *. unfold Z.lnot. lia. }
    apply in_long_shiftr in Hs, Hn; try assumption.
    apply in_long_shiftr; [assumption|]. rewrite Z.shiftr_land.
    destruct Hs as [-> | ->], Hn as [-> | ->]; auto.
Qed.

Lemma shiftl_1_disjoint (m n : Z) :
  0 <= m → 0 <= n → m ≠ n → Z.land (Z.shiftl 1 m) (Z.shiftl 1 n) = 0.
Proof.
  intros Hm Hn Hne. rewrite !Z.shiftl_1_l. by_bits k.
  rewrite Z.bits_0, !Z.pow2_bits_eqb by assumption.
  destruct (Z.eqb_spec m k), (Z.eqb_spec n k); simpl; congruence.
Qed.

Lemma single_bit_qualifiers_shifts :
  single_bit_qualifiers = (λ k, Z.shiftl 1 (Z.of_nat k)) <$> seq 0 12.
Proof. reflexivity. Qed.

Lemma single_bit_qualifiers_lookup (i : nat) (a : Z) :
  single_bit_qualifiers !! i = Some a → a = Z.shiftl 1 (Z.of_nat i).
Proof.
  rewrite single_bit_qualifiers_shifts, list_lookup_fmap.
  intros H. apply fmap_Some in H as (k & Hk & ->).
  apply lookup_seq in Hk as [-> _]. reflexivity.
Qed.

Lemma FlagIsSet_lor (q a b : Z) :
  FlagIsSet q (Z.lor a b) = FlagIsSet q a || FlagIsSet q b.
Proof.
  apply eq_true_iff_eq.
  rewrite orb_true_iff, !FlagIsSet_true, Z.land_lor_distr_r, Z.lor_eq_0_iff.
  destruct (decide (Z.land q a = 0)), (decide (Z.land q b = 0)); tauto.
Qed.

(** A flag set contains a single-bit mask when it has that bit. *)
Lemma contains_single_bit (q k : Z) :
  0 <= k →
  Z.land q (Z.shiftl 1 k) = Z.shiftl 1 k ↔ Z.testbit q k = true.
Proof.
  intros Hk. rewrite Z.shiftl_1_l. split.
  - intros H. apply (land_eq_bits q (2 ^ k) k H).
    apply Z.pow2_bits_true. exact Hk.
  - intros Hb. by_bits n. destruct (decide (n = k)) as [-> | Hne].
    + rewrite Hb. reflexivity.
    + rewrite (Z.pow2_bits_false k n) by lia. apply andb_false_r.
Qed.

(** C4: [kTQ_Import] is the bitwise or of [kTQ_ImportStd] and
    [kTQ_ImportTry] (the mask 48); two different single-bit qualifiers have
    no bit in common; and a qualifier set tests positive against
    [kTQ_Import] iff it tests positive against [kTQ_ImportStd] or against
    [kTQ_ImportTry], that is iff it contains [kTQ_ImportStd] or contains
    [kTQ_ImportTry]: bit 4 or bit 5 of the set is on. *)
Theorem TypeQualifier_import_union :
  kTQ_Import = Z.lor kTQ_ImportStd kTQ_ImportTry
  ∧ kTQ_Import = 48
  ∧ (∀ (i j : nat) (a b : Z),
       single_bit_qualifiers !! i = Some a →
       single_bit_qualifiers !! j = Some b →
       i ≠ j → Z.land a b = 0)
  ∧ (∀ q : TypeQualifierSet,
       FlagIsSet q kTQ_Import =
       FlagIsSet q kTQ_ImportStd || FlagIsSet q kTQ_ImportTry)
  ∧ (∀ q : TypeQualifierSet,
       FlagIsSet q kTQ_ImportStd = Z.testbit q 4
       ∧ FlagIsSet q kTQ_ImportTry = Z.testbit q 5
       ∧ FlagIsSet q kTQ_Import = Z.testbit q 4 || Z.testbit q 5)
  ∧ (∀ q : TypeQualifierSet,
       FlagIsSet q kTQ_Import = true ↔
       Z.land q kTQ_ImportStd = kTQ_ImportStd
       ∨ Z.land q kTQ_ImportTry = kTQ_ImportTry).
Proof.
  assert (Hbits : ∀ q : Z,
            FlagIsSet q kTQ_ImportStd = Z.testbit q 4
            ∧ FlagIsSet q kTQ_ImportTry = Z.testbit q 5
            ∧ FlagIsSet q kTQ_Import = Z.testbit q 4 || Z.testbit q 5).
  { intros q. unfold kTQ_Import. rewrite FlagIsSet_lor.
    unfold kTQ_ImportStd, kTQ_ImportTry.
    rewrite !FlagIsSet_bit by lia. repeat split; reflexivity. }
  split; [reflexivity|]. split; [reflexivity|]. split; [|split; [|split]].
  - intros i j a b Ha Hb Hij.
    apply single_bit_qualifiers_lookup in Ha, Hb. subst a b.
    apply shiftl_1_disjoint; lia.
  - intros q. apply FlagIsSet_lor.
  - exact Hbits.
  - intros q. destruct (Hbits q) as (_ & _ & ->).
    unfold kTQ_ImportStd, kTQ_ImportTry.
    rewrite !contains_single_bit by lia. apply orb_true_iff.
Qed.

Lemma TypeQualifier_import_union_witness :
  Z.land kTQ_Const kTQ_Writeprotected = 0
  ∧ FlagIsSet kTQ_ImportStd kTQ_Import = true
  ∧ FlagIsSet (Z.lor kTQ_Const kTQ_ImportTry) kTQ_Import = true
  ∧ FlagIsSet (Z.lor kTQ_Const kTQ_Managed) kTQ_Import = false.
Proof.
  destruct TypeQualifier_import_union
    as (_ & _ & Hdisj & _ & Hbits & Hcontains).
  split; [|split; [|split]].
  - apply (Hdisj 3%nat 11%nat); [reflexivity | reflexivity | lia].
  - apply Hcontains. left. reflexivity.
  - apply Hcontains. right. reflexivity.
  - destruct (Hbits (Z.lor kTQ_Const kTQ_Managed)) as (_ & _ & ->).
    reflexivity.
Defined.

(** A mask of several bits tests as set as soon as one of its bits is; the
    bits of the mask are all set only after [SetFlag]. *)
Example SetFlag_mask_partly_set :
  FlagIsSet kTQ_ImportStd kTQ_Import = true
  ∧ SetFlag kTQ_ImportStd kTQ_Import true = kTQ_Import
  ∧ kTQ_Import ≠ kTQ_ImportStd.
Proof. repeat split. discriminate. Qed.

(** C5: [SetFlag] is idempotent. Doing it twice with the same mask and
    value is doing it once; once the bits of the mask are set, which is the
    state [SetFlag (_, f, true)] leaves, setting them again changes nothing,
    in particular for a single bit that tests as set; likewise for
    clearing. There is no failure: the result is a value of the type
    again. *)
Theorem SetFlag_idempotent :
  (∀ (s : FlagSet) (f : Z) (v : bool),
     SetFlag (SetFlag s f v) f v = SetFlag s f v)
  ∧ (∀ (s : FlagSet) (f : Z),
       Z.land (SetFlag s f true) f = f
       ∧ Z.land (SetFlag s f false) f = 0)
  ∧ (∀ (s : FlagSet) (f : Z), Z.land s f = f → SetFlag s f true = s)
  ∧ (∀ (s : FlagSet) (f : Z), Z.land s f = 0 → SetFlag s f false = s)
  ∧ (∀ (s : FlagSet) (k : Z),
       0 <= k → FlagIsSet s (Z.shiftl 1 k) = true →
       SetFlag s (Z.shiftl 1 k) true = s)
  ∧ (∀ (s : FlagSet) (k : Z),
       0 <= k → FlagIsSet s (Z.shiftl 1 k) = false →
       SetFlag s (Z.shiftl 1 k) false = s)
  ∧ (∀ (w : Z) (s : FlagSet) (f : Z) (v : bool),
       0 < w → in_long w s → in_long w f → in_long w (SetFlag s f v)).
Proof.
  split; [exact SetFlag_twice|].
  split; [intros s f; split;
          [apply SetFlag_true_mask | apply SetFlag_false_mask]|].
  split; [exact SetFlag_true_already|].
  split; [exact SetFlag_false_already|].
  split; [|split; [|exact SetFlag_in_long]].
  - intros s k Hk Hset. apply SetFlag_true_already.
    rewrite FlagIsSet_bit in Hset by assumption.
    rewrite Z.shiftl_1_l. by_bits n.
    destruct (decide (n = k)) as [-> | Hne].
    + rewrite Hset. reflexivity.
    + rewrite (Z.pow2_bits_false k n) by lia. apply andb_false_r.
  - intros s k Hk Hclear. apply SetFlag_false_already.
    apply FlagIsSet_false. exact Hclear.
Qed.

Lemma SetFlag_idempotent_witness :
  SetFlag 48 kTQ_ImportStd true = 48
  ∧ SetFlag 32 kTQ_ImportStd false = 32
  ∧ SetFlag 9 kTQ_Const true = 9
  ∧ SetFlag 9 kTQ_Builtin false = 9
  ∧ in_long 32 (SetFlag (-1) kTQ_Import false).
Proof.
  destruct SetFlag_idempotent as (_ & _ & Hset & Hclear & Hbit & Hnbit & Hin).
  split; [apply Hset; reflexivity|].
  split; [apply Hclear; reflexivity|].
  split; [apply (Hbit 9 3); [lia | reflexivity]|].
  split; [apply (Hnbit 9 2); [lia | reflexivity]|].
  apply Hin; [lia | split; by vm_compute | split; by vm_compute].
Defined.

(** C9: [SetFlag] with mask [f] leaves the test of every mask [g] that
    shares no bit with [f] as it was. *)
Theorem SetFlag_frame (s : FlagSet) (f g : Z) (v : bool) :
  Z.land f g = 0 → FlagIsSet (SetFlag s f v) g = FlagIsSet s g.
Proof.
  intros H. unfold FlagIsSet at 1 2.
  rewrite (SetFlag_other_bits s f g v H). reflexivity.
Qed.

Lemma SetFlag_frame_witness :
  FlagIsSet (SetFlag kTQ_Static kTQ_Const true) kTQ_Static = true
  ∧ FlagIsSet (SetFlag kTQ_Static kTQ_Const false) kTQ_Readonly = false.
Proof.
  split.
  - rewrite (SetFlag_frame kTQ_Static kTQ_Const kTQ_Static true);
      reflexivity.
  - rewrite (SetFlag_frame kTQ_Static kTQ_Const kTQ_Readonly false);
      reflexivity.
Defined.

(** ** MessageHandler *)

Section MessageHandler_properties.
Import MessageHandler.

Lemma GetMessages_AddMessage (sev : Severity) (sec : string) (line : N)
    (msg : string) (h : t) :
  GetMessages (AddMessage sev sec line msg h) =
  GetMessages h ++ [mkEntry sev sec line msg].
Proof. reflexivity. Qed.

(** A call either clears the handler or leaves the entries it holds in
    place. *)
Lemma call_entries (c : Mutator) (h : t) :
  GetMessages (call c h) = [] ∨ GetMessages h `prefix_of` GetMessages (call c h).
Proof.
  destruct c as [sev sec line msg|]; [right | left; reflexivity].
  unfold call. rewrite GetMessages_AddMessage. apply prefix_app_r.
  reflexivity.
Qed.

(** C6: after [AddMessage] the messages are the previous messages followed
    by the one new entry {severity, section, line, text}: one entry more,
    the earlier entries at their positions, the new entry last. No member
    takes a single entry out: a call either keeps all entries where they
    are or, for [Clear], leaves none. *)
Theorem AddMessage_pure_append :
  (∀ (h : t) (sev : Severity) (sec : string) (line : N) (msg : string),
     GetMessages (AddMessage sev sec line msg h) =
     GetMessages h ++
       [ {| Entry_Severity := sev; Entry_Section := sec;
            Entry_Lineno := line; Entry_Message := msg |} ])
  ∧ (∀ (h : t) (sev : Severity) (sec : string) (line : N) (msg : string),
       length (GetMessages (AddMessage sev sec line msg h)) =
       S (length (GetMessages h)))
  ∧ (∀ (h : t) (sev : Severity) (sec : string) (line : N) (msg : string)
       (i : nat) (e : Entry),
       GetMessages h !! i = Some e →
       GetMessages (AddMessage sev sec line msg h) !! i = Some e)
  ∧ (∀ (c : Mutator) (h : t),
       GetMessages (call c h) = [] ∨
       ∀ (i : nat) (e : Entry),
         GetMessages h !! i = Some e → GetMessages (call c h) !! i = Some e).
Proof.
  split; [intros; apply GetMessages_AddMessage|].
  split.
  { intros. rewrite GetMessages_AddMessage, length_app. simpl. lia. }
  split.
  { intros h sev sec line msg i e Hi. rewrite GetMessages_AddMessage.
    apply lookup_app_l_Some. exact Hi. }
  intros c h. destruct (call_entries c h) as [Hnil | Hpre]; [left | right].
  - exact Hnil.
  - intros i e Hi. eapply prefix_lookup_Some; eassumption.
Qed.

Lemma AddMessage_pure_append_witness :
  GetMessages
    (AddMessage kSV_Warning "room1.asc" 12 "unused"
       (AddMessage kSV_Info "room1.asc" 3 "note" new)) !! 0%nat
  = Some (mkEntry kSV_Info "room1.asc" 3 "note").
Proof.
  apply (proj1 (proj2 (proj2 AddMessage_pure_append))). reflexivity.
Defined.

Lemma GetError_none (noError : Entry) (h : t) :
  Forall (λ e, ¬ is_error e) (GetMessages h) → GetError noError h = noError.
Proof.
  intros H. unfold GetError.
  apply (list_find_None is_error) in H.
  unfold is_error, GetMessages in H. rewrite H. reflexivity.
Qed.

Lemma GetError_first (noError : Entry) (h : t) (pre post : list Entry)
    (e : Entry) :
  GetMessages h = pre ++ e :: post →
  Forall (λ x, ¬ is_error x) pre → is_error e →
  GetError noError h = e.
Proof.
  intros Hh Hpre He. unfold GetError, GetMessages in *. rewrite Hh.
  apply (list_find_None is_error) in Hpre.
  assert (Hf : list_find is_error (pre ++ e :: post)
               = Some (length pre + 0, e)%nat).
  { apply list_find_app_Some. right.
    split; [lia|]. split; [exact Hpre|].
    replace (length pre + 0 - length pre)%nat with 0%nat by lia.
    simpl. rewrite decide_True by exact He. reflexivity. }
  unfold is_error in Hf. rewrite Hf. reflexivity.
Qed.

(** Calls that add no error entry keep the handler free of error
    entries. *)
Lemma calls_no_error (cs : list Mutator) (h : t) :
  Forall adds_no_error cs →
  Forall (λ e, ¬ is_error e) (GetMessages h) →
  Forall (λ e, ¬ is_error e) (GetMessages (calls cs h)).
Proof.
  intros Hcs. revert h. induction Hcs as [| c cs Hc _ IH]; intros h Hh.
  - exact Hh.
  - apply IH. destruct c as [sev sec line msg|]; unfold call.
    + rewrite GetMessages_AddMessage. apply Forall_app. split; [exact Hh|].
      apply Forall_singleton. unfold is_error. simpl in *.
      destruct Hc as [-> | ->]; discriminate.
    + apply Forall_nil_2.
Qed.

(** C7: [GetError] returns the first entry, in emission order, whose
    severity is error, and the sentinel when no entry has that severity;
    so a handler that has only received info and warning messages answers
    with the sentinel. Conversely what [GetError] returns is the sentinel
    with no error entry present, or an error entry with none before it. *)
Theorem GetError_first_error_or_sentinel :
  (∀ (noError : Entry) (h : t) (pre post : list Entry) (e : Entry),
     GetMessages h = pre ++ e :: post →
     Forall (λ x, Entry_Severity x ≠ kSV_Error) pre →
     Entry_Severity e = kSV_Error →
     GetError noError h = e)
  ∧ (∀ (noError : Entry) (h : t),
       Forall (λ x, Entry_Severity x ≠ kSV_Error) (GetMessages h) →
       GetError noError h = noError)
  ∧ (∀ (noError : Entry) (cs : list Mutator),
       Forall adds_no_error cs →
       GetError noError (calls cs new) = noError)
  ∧ (∀ (noError : Entry) (h : t),
       (GetError noError h = noError
        ∧ Forall (λ x, Entry_Severity x ≠ kSV_Error) (GetMessages h))
       ∨ ∃ (i : nat),
           GetMessages h !! i = Some (GetError noError h)
           ∧ Entry_Severity (GetError noError h) = kSV_Error
           ∧ ∀ (j : nat) (x : Entry),
               GetMessages h !! j = Some x → (j < i)%nat →
               Entry_Severity x ≠ kSV_Error).
Proof.
  split; [exact GetError_first|].
  split; [exact GetError_none|].
  split.
  { intros noError cs Hcs. apply GetError_none.
    apply calls_no_error; [exact Hcs | apply Forall_nil_2]. }
  intros noError h. unfold GetError, GetMessages.
  destruct (list_find _ (_entries h)) as [[i e]|] eqn:Hf.
  - right. exists i. apply list_find_Some in Hf as (Hi & He & Hleast).
    split; [exact Hi|]. split; [exact He|]. exact Hleast.
  - left. split; [reflexivity|]. apply list_find_None in Hf. exact Hf.
Qed.

Lemma GetError_first_error_or_sentinel_witness :
  GetError (mkEntry kSV_None "" 0 "")
    (calls [ CallAddMessage kSV_Warning "a.asc" 4 "unused variable";
             CallAddMessage kSV_Error "a.asc" 9 "undefined symbol";
             CallAddMessage kSV_Error "a.asc" 11 "type mismatch" ] new)
  = mkEntry kSV_Error "a.asc" 9 "undefined symbol"
  ∧ GetError (mkEntry kSV_None "" 0 "")
      (calls [ CallAddMessage kSV_Info "a.asc" 1 "compiling";
               CallAddMessage kSV_Warning "a.asc" 4 "unused variable" ] new)
    = mkEntry kSV_None "" 0 "".
Proof.
  destruct GetError_first_error_or_sentinel as (Hfirst & _ & Hcalls & _).
  split.
  - apply (Hfirst _ _ [mkEntry kSV_Warning "a.asc" 4 "unused variable"]
             [mkEntry kSV_Error "a.asc" 11 "type mismatch"]).
    + reflexivity.
    + apply Forall_singleton. discriminate.
    + reflexivity.
  - apply Hcalls. apply Forall_cons. split; [left; reflexivity|].
    apply Forall_singleton. right. reflexivity.
Defined.

End MessageHandler_properties.

(** * Further properties of the flag helpers *)

Lemma SetFlag_testbit (s k j : Z) (v : bool) :
  0 <= k → 0 <= j →
  Z.testbit (SetFlag s (Z.shiftl 1 k) v) j =
  if decide (j = k) then v else Z.testbit s j.
Proof.
  intros Hk Hj. unfold SetFlag. rewrite Z.shiftl_1_l.
  destruct v;
    [rewrite Z.lor_spec | rewrite Z.land_spec, Z.lnot_spec by assumption];
    rewrite Z.pow2_bits_eqb by assumption;
    destruct (decide (j = k)) as [-> | Hne].
  - rewrite Z.eqb_refl. apply orb_true_r.
  - rewrite (proj2 (Z.eqb_neq k j)) by congruence. apply orb_false_r.
  - rewrite Z.eqb_refl. apply andb_false_r.
  - rewrite (proj2 (Z.eqb_neq k j)) by congruence. apply andb_true_r.
Qed.

Lemma SetFlag_keeps_within (m s f : Z) (v : bool) :
  Z.land s m = s → Z.land f m = f →
  Z.land (SetFlag s f v) m = SetFlag s f v.
Proof.
  intros Hs Hf. unfold SetFlag. destruct v; by_bits n;
    pose proof (land_eq_bits m s n) as Hsm;
    pose proof (land_eq_bits m f n) as Hfm;
    rewrite Z.land_comm in Hs, Hf; specialize (Hsm Hs); specialize (Hfm Hf);
    destruct (Z.testbit s n), (Z.testbit f n), (Z.testbit m n);
    simpl in *; auto; try (symmetry; auto).
Qed.

(** Reading a mask back after writing it: after setting [f] the test of [f]
    succeeds unless [f] is the empty mask, for which the test never
    succeeds; after clearing [f] the test of [f] fails. *)
Theorem FlagIsSet_after_SetFlag :
  ∀ (s : FlagSet) (f : Z),
    FlagIsSet (SetFlag s f true) f = negb (f =? 0)
    ∧ FlagIsSet (SetFlag s f false) f = false
    ∧ FlagIsSet s 0 = false
    ∧ FlagIsSet 0 f = false.
Proof.
  intros s f. unfold FlagIsSet.
  rewrite SetFlag_true_mask, SetFlag_false_mask, Z.land_0_r, Z.land_0_l.
  rewrite (Z.eqb_sym 0 f). repeat split; reflexivity.
Qed.

(** The last write wins: a second [SetFlag] with the same mask makes the
    first one unobservable, whatever the two values. *)
Theorem SetFlag_last_write_wins :
  ∀ (s : FlagSet) (f : Z) (v v' : bool),
    SetFlag (SetFlag s f v) f v' = SetFlag s f v'.
Proof.
  intros s f v v'. unfold SetFlag. destruct v, v'; by_bits n;
    destruct (Z.testbit s n), (Z.testbit f n); reflexivity.
Qed.

(** Two calls of [SetFlag] can be swapped when their masks share no bit, or
    when they write the same value. *)
Theorem SetFlag_commutes (s : FlagSet) (f g : Z) (v v' : bool) :
  Z.land f g = 0 ∨ v = v' →
  SetFlag (SetFlag s f v) g v' = SetFlag (SetFlag s g v') f v.
Proof.
  intros H. unfold SetFlag. destruct v, v'; by_bits n;
    try (destruct (Z.testbit s n), (Z.testbit f n), (Z.testbit g n);
         reflexivity);
    (destruct H as [H | H]; [| discriminate H]);
    pose proof (land_0_bits f g n H) as Hb;
    destruct (Z.testbit s n), (Z.testbit f n), (Z.testbit g n);
    simpl in *; congruence.
Qed.

Lemma SetFlag_commutes_witness :
  SetFlag (SetFlag kTQ_Static kTQ_Const true) kTQ_Static false =
  SetFlag (SetFlag kTQ_Static kTQ_Static false) kTQ_Const true.
Proof. apply SetFlag_commutes. left. reflexivity. Defined.

(** With overlapping masks and different values the order matters. *)
Example SetFlag_overlapping_order :
  SetFlag (SetFlag 0 kTQ_Import true) kTQ_ImportStd false ≠
  SetFlag (SetFlag 0 kTQ_ImportStd false) kTQ_Import true.
Proof. discriminate. Qed.

(** A mask that is the union of two masks: writing it is writing the two
    one after the other, and testing it is testing whether either is set
    (any bit of the mask, not all of them). *)
Theorem SetFlag_FlagIsSet_union :
  ∀ (s : FlagSet) (f g : Z),
    (∀ v : bool, SetFlag s (Z.lor f g) v = SetFlag (SetFlag s f v) g v)
    ∧ FlagIsSet s (Z.lor f g) = FlagIsSet s f || FlagIsSet s g.
Proof.
  intros s f g. split; [|apply FlagIsSet_lor].
  intros v. unfold SetFlag. destruct v; by_bits n;
    destruct (Z.testbit s n), (Z.testbit f n), (Z.testbit g n); reflexivity.
Qed.

(** A mask [f] contained in a mask [g]: clearing [g] clears [f], and
    setting [f], when it has a bit at all, makes the test of [g] succeed. *)
Theorem SetFlag_submask (s : FlagSet) (f g : Z) :
  Z.land f g = f →
  FlagIsSet (SetFlag s g false) f = false
  ∧ (f ≠ 0 → FlagIsSet (SetFlag s f true) g = true).
Proof.
  intros Hfg. split.
  - apply FlagIsSet_false. unfold SetFlag. by_bits n. rewrite Z.bits_0.
    pose proof (land_eq_bits g f n) as Hb. rewrite Z.land_comm in Hfg.
    specialize (Hb Hfg).
    destruct (Z.testbit s n), (Z.testbit f n), (Z.testbit g n);
      simpl in *; auto; try (symmetry; auto).
  - intros Hf. apply FlagIsSet_true. intros H0. apply Hf.
    rewrite <- Hfg. unfold SetFlag in H0. by_bits n. rewrite Z.bits_0.
    pose proof (land_0_bits _ _ n H0) as Hb. rewrite Z.lor_spec in Hb.
    destruct (Z.testbit s n), (Z.testbit f n), (Z.testbit g n);
      simpl in *; congruence.
Qed.

Lemma SetFlag_submask_witness :
  FlagIsSet (SetFlag 63 kTQ_Import false) kTQ_ImportTry = false
  ∧ FlagIsSet (SetFlag 0 kTQ_ImportTry true) kTQ_Import = true.
Proof.
  destruct (SetFlag_submask 63 kTQ_ImportTry kTQ_Import) as [Hc _];
    [reflexivity|].
  destruct (SetFlag_submask 0 kTQ_ImportTry kTQ_Import) as [_ Hs];
    [reflexivity|].
  split; [exact Hc | apply Hs; discriminate].
Defined.

(** A single-bit mask [1 << k] addresses bit [k] of the flag set: the test
    reads that bit, and [SetFlag] writes it and no other. *)
Theorem SetFlag_single_bit (s : FlagSet) (k j : Z) (v : bool) :
  0 <= k → 0 <= j →
  FlagIsSet s (Z.shiftl 1 k) = Z.testbit s k
  ∧ FlagIsSet (SetFlag s (Z.shiftl 1 k) v) (Z.shiftl 1 j) =
    if decide (j = k) then v else FlagIsSet s (Z.shiftl 1 j).
Proof.
  intros Hk Hj. rewrite !FlagIsSet_bit by assumption.
  split; [reflexivity|]. apply SetFlag_testbit; assumption.
Qed.

Lemma SetFlag_single_bit_witness :
  FlagIsSet 5 (Z.shiftl 1 2) = Z.testbit 5 2
  ∧ FlagIsSet (SetFlag 5 (Z.shiftl 1 2) false) (Z.shiftl 1 0) =
    if decide (0 = 2) then false else FlagIsSet 5 (Z.shiftl 1 0).
Proof. apply (SetFlag_single_bit 5 2 0 false); lia. Defined.

Lemma SymbolTableFlag_enumerators_lookup (i : nat) (a : Z) :
  SymbolTableFlag_enumerators !! i = Some a → a = Z.shiftl 1 (Z.of_nat i).
Proof.
  change SymbolTableFlag_enumerators
    with ((λ k, Z.shiftl 1 (Z.of_nat k)) <$> seq 0 7).
  rewrite list_lookup_fmap. intros H.
  apply fmap_Some in H as (k & Hk & ->).
  apply lookup_seq in Hk as [-> _]. reflexivity.
Qed.

(** The symbol table flags are independent switches: after [SetFlag] with
    one of them and value [v] that flag tests as [v], and every other flag
    of the enumeration tests as before. *)
Theorem SymbolTableFlag_independent (s : FlagSet) (i j : nat) (a b : Z)
    (v : bool) :
  SymbolTableFlag_enumerators !! i = Some a →
  SymbolTableFlag_enumerators !! j = Some b →
  FlagIsSet (SetFlag s a v) a = v
  ∧ (i ≠ j → FlagIsSet (SetFlag s a v) b = FlagIsSet s b).
Proof.
  intros Ha Hb. apply SymbolTableFlag_enumerators_lookup in Ha, Hb.
  subst a b. rewrite !FlagIsSet_bit by lia.
  rewrite !SetFlag_testbit by lia. split.
  - rewrite decide_True by reflexivity. reflexivity.
  - intros Hij. rewrite decide_False by lia. reflexivity.
Qed.

Lemma SymbolTableFlag_independent_witness :
  FlagIsSet (SetFlag kSFLG_StructMember kSFLG_Accessed true) kSFLG_Accessed
  = true
  ∧ FlagIsSet (SetFlag kSFLG_StructMember kSFLG_Accessed true)
      kSFLG_StructMember
    = FlagIsSet kSFLG_StructMember kSFLG_StructMember.
Proof.
  destruct (SymbolTableFlag_independent kSFLG_StructMember 0 4
              kSFLG_Accessed kSFLG_StructMember true) as [Hown Hother];
    [reflexivity | reflexivity |].
  split; [exact Hown | apply Hother; lia].
Defined.

Lemma within_12_bits (q : Z) : Z.land q (Z.ones 12) = q ↔ 0 <= q < 4096.
Proof.
  rewrite Z.land_ones by lia. change (2 ^ 12) with 4096.
  rewrite Z.mod_small_iff by lia. lia.
Qed.

Lemma TypeQualifier_enumerators_within (f : Z) :
  f ∈ TypeQualifier_enumerators → Z.land f (Z.ones 12) = f.
Proof.
  unfold TypeQualifier_enumerators. intros H.
  repeat (apply elem_of_cons in H as [-> | H]; [reflexivity|]).
  apply elem_of_nil in H. destruct H.
Qed.

Lemma SetFlags_keeps_within (m : Z) (ops : list (Z * bool)) (q : Z) :
  Z.land q m = q → Forall (λ op, Z.land op.1 m = op.1) ops →
  Z.land (SetFlags ops q) m = SetFlags ops q.
Proof.
  intros Hq Hops. revert q Hq.
  induction Hops as [| [f v] ops Hf _ IH]; intros q Hq; [exact Hq|].
  apply IH. apply SetFlag_keeps_within; assumption.
Qed.

(** A qualifier set only ever written with enumerators of [TypeQualifier]
    stays a number below [1 << 12]: such a set never becomes negative and
    fits [long] wherever that has 13 bits or more. *)
Theorem TypeQualifierSet_bounded (ops : list (Z * bool))
    (q : TypeQualifierSet) :
  0 <= q < 4096 →
  Forall (λ op, op.1 ∈ TypeQualifier_enumerators) ops →
  0 <= SetFlags ops q < 4096
  ∧ ∀ w : Z, 13 <= w → in_long w (SetFlags ops q).
Proof.
  intros Hq Hops.
  assert (Hr : 0 <= SetFlags ops q < 4096).
  { apply within_12_bits. apply SetFlags_keeps_within.
    - apply within_12_bits. exact Hq.
    - eapply Forall_impl; [exact Hops|]. intros [f v] Hf.
      apply TypeQualifier_enumerators_within. exact Hf. }
  split; [exact Hr|]. intros w Hw. unfold in_long.
  assert (Hp : 2 ^ 12 <= 2 ^ (w - 1)) by (apply Z.pow_le_mono_r; lia).
  change (2 ^ 12) with 4096 in Hp. lia.
Qed.

Lemma TypeQualifierSet_bounded_witness :
  0 <= SetFlags [(kTQ_Import, true); (kTQ_Const, true);
                 (kTQ_ImportTry, false)] kTQ_None < 4096.
Proof.
  apply (TypeQualifierSet_bounded
           [(kTQ_Import, true); (kTQ_Const, true); (kTQ_ImportTry, false)]
           kTQ_None).
  - split; by vm_compute.
  - repeat (apply Forall_cons_2; [cbn [fst]; repeat constructor|]).
    apply Forall_nil_2.
Defined.

(** The tags of [SymbolType] are numbered 0 to 18 without gap or repeat,
    and every number fits the underlying type [short]. *)
Theorem SymbolType_numbering :
  (∀ t : SymbolType,
     0 <= SymbolType_value t <= 18 ∧ in_long 16 (SymbolType_value t))
  ∧ (∀ t u : SymbolType, SymbolType_value t = SymbolType_value u → t = u)
  ∧ (∀ z : Z, 0 <= z <= 18 → ∃ t : SymbolType, SymbolType_value t = z).
Proof.
  split; [|split].
  - intros t. pose proof (SymbolType_value_index t) as [_ H].
    split; [lia|]. unfold in_long. change (2 ^ (16 - 1)) with 32768. lia.
  - exact SymbolType_value_inj.
  - intros z Hz.
    assert (Hn : ∃ n : nat, z = Z.of_nat n ∧ (n < 19)%nat).
    { exists (Z.to_nat z). lia. }
    destruct Hn as (n & -> & Hn).
    destruct (lookup_lt_is_Some_2 (fst <$> SymbolType_decl) n) as [t Ht].
    { rewrite length_fmap. exact Hn. }
    exists t.
    do 19 (destruct n as [| n];
           [injection Ht as <-; reflexivity|]).
    lia.
Qed.

Lemma SymbolType_numbering_witness :
  kSYM_Keyword = kSYM_Keyword ∧ ∃ t : SymbolType, SymbolType_value t = 15.
Proof.
  destruct SymbolType_numbering as (_ & Hinj & Hsurj).
  split; [apply Hinj; reflexivity | apply Hsurj; lia].
Defined.

(** * Further properties of MessageHandler *)

Section MessageHandler_calls.
Import MessageHandler.

Lemma calls_app (cs1 cs2 : list Mutator) (h : t) :
  calls (cs1 ++ cs2) h = calls cs2 (calls cs1 h).
Proof. unfold calls. apply foldl_app. Qed.

(** [Clear] forgets the past: whatever the handler held and whatever was
    called before, after a [Clear] the handler goes on exactly like a newly
    constructed one. *)
Theorem Clear_forgets :
  ∀ (cs1 cs2 : list Mutator) (h : t),
    calls (cs1 ++ CallClear :: cs2) h = calls cs2 new.
Proof.
  intros cs1 cs2 h. rewrite calls_app.
  change (calls (CallClear :: cs2) (calls cs1 h))
    with (calls cs2 (Clear (calls cs1 h))).
  reflexivity.
Qed.

(** A run of [AddMessage] calls extends the messages by one entry per call,
    in the order of the calls, each built by the constructor of [Entry] from
    the arguments of its call. *)
Theorem AddMessage_run_in_order :
  ∀ (args : list (Severity * string * N * string)) (h : t),
    GetMessages
      (calls ((λ a, CallAddMessage a.1.1.1 a.1.1.2 a.1.2 a.2) <$> args) h)
    = GetMessages h
      ++ ((λ a, Entry_ctor a.1.1.1 a.1.1.2 a.1.2 a.2) <$> args).
Proof.
  intros args. induction args as [| a args IH]; intros h.
  - simpl. rewrite app_nil_r. reflexivity.
  - rewrite !fmap_cons.
    change (calls (?c :: ?cs) h) with (calls cs (call c h)).
    rewrite IH. unfold call. rewrite GetMessages_AddMessage.
    rewrite <- app_assoc. reflexivity.
Qed.

End MessageHandler_calls.

(** * TextImportProcessor *)

Section TextImportProcessor_properties.
Import TextImportProcessor.

Lemma length_0_empty (s : string) : String.length s = 0%nat ↔ s = EmptyString.
Proof. destruct s; simpl; split; congruence. Qed.

(** What [CreateSpeechLine] can return: never [null] and never an empty
    translation in place of a text that is not empty; the result is the
    text itself or what the dictionary holds for it; and a text that has no
    entry, or an empty one, comes back unchanged. *)
Theorem CreateSpeechLine_returns :
  ∀ (this : t) (speakingCharacter : Z) (text r : StringRef),
    CreateSpeechLine this speakingCharacter text = inr r →
    (∃ (dict : Dictionary) (key res : string),
       _translationToUse this = Some dict ∧ text = Some key ∧ r = Some res
       ∧ (res = key ∨ dict !! key = Some (Some res))
       ∧ (res = EmptyString → key = EmptyString)
       ∧ (dict !! key = None ∨ dict !! key = Some (Some EmptyString) →
          res = key)).
Proof.
  intros [[dict|]] c [key|] r; unfold CreateSpeechLine; simpl;
    try discriminate.
  destruct (dict !! key) as [[tr|]|] eqn:Hd; try discriminate.
  - destruct (0 <? String.length tr)%nat eqn:Hlen; intros [= <-].
    + apply Nat.ltb_lt in Hlen. exists dict, key, tr.
      repeat split; auto.
      * intros ->. simpl in Hlen. lia.
      * unfold Dictionary, StringRef in *.
        intros [H0 | H0]; [congruence|].
        assert (tr = EmptyString) as -> by congruence.
        simpl in Hlen. lia.
    + apply Nat.ltb_ge in Hlen.
      assert (tr = EmptyString) as -> by (apply length_0_empty; lia).
      exists dict, key, key. repeat split; auto.
  - intros [= <-]. exists dict, key, key. repeat split; auto.
Qed.

Lemma CreateSpeechLine_returns_witness :
  ∃ (dict : Dictionary) (key res : string),
    Some ({[ "Hello"%string := Some "Hallo"%string ]} : Dictionary)
      = Some dict
    ∧ Some "Hello"%string = Some key ∧ Some "Hallo"%string = Some res
    ∧ (res = key ∨ dict !! key = Some (Some res))
    ∧ (res = EmptyString → key = EmptyString)
    ∧ (dict !! key = None ∨ dict !! key = Some (Some EmptyString) →
       res = key).
Proof.
  apply (CreateSpeechLine_returns
           (mk (Some {[ "Hello"%string := Some "Hallo"%string ]})) 0
           (Some "Hello"%string) (Some "Hallo"%string)).
  by vm_compute.
Defined.

(** When [CreateSpeechLine] throws: exactly when the dictionary reference
    or the text is [null], or the dictionary holds [null] for the text. *)
Theorem CreateSpeechLine_throws :
  ∀ (this : t) (speakingCharacter : Z) (text : StringRef),
    (∃ e : Exception,
       CreateSpeechLine this speakingCharacter text = inl e)
    ↔ (_translationToUse this = None
       ∨ text = None
       ∨ ∃ (dict : Dictionary) (key : string),
           _translationToUse this = Some dict ∧ text = Some key
           ∧ dict !! key = Some None).
Proof.
  intros [[dict|]] c [key|]; unfold CreateSpeechLine; simpl;
    try (split; [auto | intros _; eexists; reflexivity]).
  destruct (dict !! key) as [[tr|]|] eqn:Hd.
  - destruct (0 <? String.length tr)%nat; split.
    all: try (intros [e He]; discriminate He).
    all: intros [? | [? | (d & k & [= <-] & [= <-] & Hk)]];
      congruence.
  - split; [|intros _; eexists; reflexivity].
    intros _. right. right. exists dict, key. auto.
  - split; [intros [e He]; discriminate He|].
    intros [? | [? | (d & k & [= <-] & [= <-] & Hk)]]; congruence.
Qed.

End TextImportProcessor_properties.

(** * GameState *)

Section GameState_properties.
Import GameState.

Lemma land_lor_lnot (a b : Z) :
  Z.land (Z.lor a b) (Z.lnot b) = Z.land a (Z.lnot b).
Proof.
  by_bits n. destruct (Z.testbit a n), (Z.testbit b n); reflexivity.
Qed.

(** The result of a skipped wait does not show the timer flag: recording
    the reason with or without [SKIP_AUTOTIMER] gives the same result, and
    a wait skipped by the timer alone has reason 0, the result being the
    masked data. Recording a result also resets the wait counter. *)
Theorem GetWaitSkipResult_hides_timer :
  ∀ (SKIP_AUTOTIMER SKIP_RESULT_TYPE_SHIFT SKIP_RESULT_DATA_MASK : Z)
    (this : t) (how data : Z),
    GetWaitSkipResult SKIP_AUTOTIMER SKIP_RESULT_TYPE_SHIFT
      SKIP_RESULT_DATA_MASK
      (SetWaitSkipResult (Z.lor how SKIP_AUTOTIMER) data this)
    = GetWaitSkipResult SKIP_AUTOTIMER SKIP_RESULT_TYPE_SHIFT
        SKIP_RESULT_DATA_MASK (SetWaitSkipResult how data this)
    ∧ GetWaitSkipResult SKIP_AUTOTIMER SKIP_RESULT_TYPE_SHIFT
        SKIP_RESULT_DATA_MASK (SetWaitSkipResult SKIP_AUTOTIMER data this)
      = Z.land data SKIP_RESULT_DATA_MASK
    ∧ wait_counter (SetWaitSkipResult how data this) = 0.
Proof.
  intros T S M this how data. unfold GetWaitSkipResult. simpl.
  split; [|split; [|reflexivity]].
  - rewrite land_lor_lnot. reflexivity.
  - rewrite Z.land_lnot_diag, Z.shiftl_0_l. reflexivity.
Qed.

(** Voice speech is blocking or non-blocking, never both, and it is one of
    the two exactly when the speech has a voice. *)
Theorem voice_speech_blocking_or_not :
  ∀ this : t,
    IsBlockingVoiceSpeech this && IsNonBlockingVoiceSpeech this = false
    ∧ IsBlockingVoiceSpeech this || IsNonBlockingVoiceSpeech this
      = speech_has_voice this.
Proof.
  intros this. unfold IsBlockingVoiceSpeech, IsNonBlockingVoiceSpeech.
  destruct (speech_has_voice this), (speech_voice_blocking this);
    split; reflexivity.
Qed.

End GameState_properties.
